(** * MyTinySTL: type_traits.h, allocator.h and util.h

    A shallow embedding of the three headers:
    - [type_traits.h]: [m_integral_constant] and the [is_pair] trait;
    - [allocator.h]: [allocator<T>::allocate] / [deallocate] over an abstract
      system allocator ([::operator new], [::operator delete]);
    - [util.h]: the [pair] template with the [enable_if] conditions of its
      constructors, its assignment operators and [swap] (over the generic
      [swap]), the relational operators, [forward] and [make_pair]. *)

From Stdlib Require Import ZArith Bool.
From stdpp Require Import base strings list gmap.

Local Open Scope Z_scope.

(** ** C++ types, as far as the traits look at them *)

Module cxx.

(** A type expression.  [Builtin] and [Class] are object types ([Class]
    carries the names of its data members); [Pair T1 T2] is the
    instantiation [mystl::pair<T1, T2>]. *)
Inductive type : Type :=
| Builtin (name : string)
| Class (name : string) (members : list string)
| Pair (T1 T2 : type)
| Const (T : type)
| Pointer (T : type)
| LRef (T : type)
| RRef (T : type).

Definition is_reference (T : type) : bool :=
  match T with LRef _ | RRef _ => true | _ => false end.

(** [const T]: a cv-qualifier applied to a reference type is ignored, and
    [const const T] is [const T]. *)
Definition add_const (T : type) : type :=
  match T with
  | LRef _ | RRef _ | Const _ => T
  | _ => Const T
  end.

(** [T&], with reference collapsing. *)
Definition add_lvalue_reference (T : type) : type :=
  match T with
  | LRef U | RRef U => LRef U
  | _ => LRef T
  end.

(** [T&&], with reference collapsing. *)
Definition add_rvalue_reference (T : type) : type :=
  match T with
  | LRef U => LRef U
  | RRef U => RRef U
  | _ => RRef T
  end.

(** [const T&] as the constructor conditions write it. *)
Definition const_ref (T : type) : type := add_lvalue_reference (add_const T).

(** The type of the expression [std::declval<T>()]. *)
Definition declval (T : type) : type := add_rvalue_reference T.

Fixpoint remove_cvref (T : type) : type :=
  match T with
  | Const U | LRef U | RRef U => remove_cvref U
  | _ => T
  end.

(** The queries of <type_traits> the headers use.  They belong to the
    standard library, so they are an interface here.  [converts E To] says
    that an expression of type (and value category) [E] converts implicitly
    to [To]; [std::is_convertible<From, To>] is that judgement at
    [declval<From>()]. *)
Record std_traits : Type := {
  is_default_constructible : type -> bool;
  is_copy_constructible : type -> bool;
  is_constructible : type -> type -> bool;
  converts : type -> type -> bool
}.

Definition is_convertible (tr : std_traits) (From To : type) : bool :=
  converts tr (declval From) To.

(** The table of the traits for the arithmetic builtins: each is default and
    copy constructible, and constructible and implicitly convertible from
    any (possibly const, possibly reference) arithmetic type.  Everything
    else is answered [false]. *)
Definition arithmetic_names : list string :=
  ["bool"; "char"; "short"; "int"; "long"; "float"; "double"]%string.

Definition is_arithmetic (T : type) : bool :=
  match T with
  | Builtin name => bool_decide (name ∈ arithmetic_names)
  | _ => false
  end.

Definition arithmetic_traits : std_traits := {|
  is_default_constructible T := is_arithmetic T;
  is_copy_constructible T := is_arithmetic T;
  is_constructible T Arg := is_arithmetic T && is_arithmetic (remove_cvref Arg);
  converts E To := is_arithmetic To && is_arithmetic (remove_cvref E)
|}.

End cxx.

(** ** type_traits.h *)

Module type_traits.
Import cxx.

Record m_integral_constant (T : Type) : Type := { value : T }.
Arguments value {T} _.

Definition m_bool_constant (b : bool) : m_integral_constant bool := {| value := b |}.
Definition m_true_type : m_integral_constant bool := m_bool_constant true.
Definition m_false_type : m_integral_constant bool := m_bool_constant false.

(** The primary template derives from [m_false_type]; the partial
    specialisation for [mystl::pair<T1, T2>] derives from [m_true_type]. *)
Definition is_pair (T : type) : m_integral_constant bool :=
  match T with
  | Pair _ _ => m_true_type
  | _ => m_false_type
  end.

End type_traits.

(** ** util.h: the [enable_if] conditions of the constructors of [pair] *)

Module pair_ctor.
Import cxx.

Section conditions.
Variable tr : std_traits.
(** The element types of the pair under construction. *)
Variables Ty1 Ty2 : type.

(** [pair()] *)
Definition default_enabled : bool :=
  let Other1 := Ty1 in
  let Other2 := Ty2 in
  is_default_constructible tr Other1 && is_default_constructible tr Other2.

(** [pair(const Ty1& a, const Ty2& b)], with [U1 = Ty1] and [U2 = Ty2]. *)
Definition same_implicit_enabled : bool :=
  let U1 := Ty1 in
  let U2 := Ty2 in
  is_copy_constructible tr U1 &&
  is_copy_constructible tr U2 &&
  is_convertible tr (const_ref U1) Ty1 &&
  is_convertible tr (const_ref U2) Ty2.

(** [explicit pair(const Ty1& a, const Ty2& b)] *)
Definition same_explicit_enabled : bool :=
  let U1 := Ty1 in
  let U2 := Ty2 in
  is_copy_constructible tr U1 &&
  is_copy_constructible tr U2 &&
  (negb (is_convertible tr (const_ref U1) Ty1) ||
   negb (is_convertible tr (const_ref U2) Ty2)).

(** The template arguments of the converting constructors. *)
Variables Other1 Other2 : type.

(** [pair(Other1&& a, Other2&& b)] *)
Definition forward_implicit_enabled : bool :=
  is_constructible tr Ty1 Other1 &&
  is_constructible tr Ty2 Other2 &&
  is_convertible tr (add_rvalue_reference Other1) Ty1 &&
  is_convertible tr (add_rvalue_reference Other2) Ty2.

(** [explicit pair(Other1&& a, Other2&& b)] *)
Definition forward_explicit_enabled : bool :=
  is_constructible tr Ty1 Other1 &&
  is_constructible tr Ty2 Other2 &&
  (negb (is_convertible tr Other1 Ty1) ||
   negb (is_convertible tr Other2 Ty2)).

(** [pair(const pair<Other1, Other2>& other)] *)
Definition copy_pair_implicit_enabled : bool :=
  is_constructible tr Ty1 (const_ref Other1) &&
  is_constructible tr Ty2 (const_ref Other2) &&
  is_convertible tr (const_ref Other1) Ty1 &&
  is_convertible tr (const_ref Other2) Ty2.

(** [explicit pair(const pair<Other1, Other2>& other)] *)
Definition copy_pair_explicit_enabled : bool :=
  is_constructible tr Ty1 (const_ref Other1) &&
  is_constructible tr Ty2 (const_ref Other2) &&
  (negb (is_convertible tr (const_ref Other1) Ty1) ||
   negb (is_convertible tr (const_ref Other2) Ty2)).

(** [pair(pair<Other1, Other2>&& other)] *)
Definition move_pair_implicit_enabled : bool :=
  is_constructible tr Ty1 Other1 &&
  is_constructible tr Ty2 Other2 &&
  is_convertible tr Other1 Ty1 &&
  is_convertible tr Other2 Ty2.

(** [explicit pair(pair<Other1, Other2>&& other)] *)
Definition move_pair_explicit_enabled : bool :=
  is_constructible tr Ty1 Other1 &&
  is_constructible tr Ty2 Other2 &&
  (negb (is_convertible tr Other1 Ty1) ||
   negb (is_convertible tr Other2 Ty2)).

(** The conditional constructors, and the condition of each. *)
Inductive rule : Type :=
| SameImplicit | SameExplicit
| ForwardImplicit | ForwardExplicit
| CopyPairImplicit | CopyPairExplicit
| MovePairImplicit | MovePairExplicit.

Definition enabled (r : rule) : bool :=
  match r with
  | SameImplicit => same_implicit_enabled
  | SameExplicit => same_explicit_enabled
  | ForwardImplicit => forward_implicit_enabled
  | ForwardExplicit => forward_explicit_enabled
  | CopyPairImplicit => copy_pair_implicit_enabled
  | CopyPairExplicit => copy_pair_explicit_enabled
  | MovePairImplicit => move_pair_implicit_enabled
  | MovePairExplicit => move_pair_explicit_enabled
  end.

(** The explicit and the implicit rule of the family a rule belongs to, and
    the part of the condition the two share. *)
Definition explicit_twin (r : rule) : rule :=
  match r with
  | SameImplicit | SameExplicit => SameExplicit
  | ForwardImplicit | ForwardExplicit => ForwardExplicit
  | CopyPairImplicit | CopyPairExplicit => CopyPairExplicit
  | MovePairImplicit | MovePairExplicit => MovePairExplicit
  end.

Definition implicit_twin (r : rule) : rule :=
  match r with
  | SameImplicit | SameExplicit => SameImplicit
  | ForwardImplicit | ForwardExplicit => ForwardImplicit
  | CopyPairImplicit | CopyPairExplicit => CopyPairImplicit
  | MovePairImplicit | MovePairExplicit => MovePairImplicit
  end.

Definition constructible_part (r : rule) : bool :=
  match r with
  | SameImplicit | SameExplicit =>
      is_copy_constructible tr Ty1 && is_copy_constructible tr Ty2
  | ForwardImplicit | ForwardExplicit | MovePairImplicit | MovePairExplicit =>
      is_constructible tr Ty1 Other1 && is_constructible tr Ty2 Other2
  | CopyPairImplicit | CopyPairExplicit =>
      is_constructible tr Ty1 (const_ref Other1) &&
      is_constructible tr Ty2 (const_ref Other2)
  end.

End conditions.

End pair_ctor.

(** ** allocator.h *)

Module allocator.

(** A [T*]: an address, [nullptr] being address zero. *)
Definition pointer : Type := Z.
Definition nullptr : pointer := 0.

(** The calls that reach the system allocator. *)
Inductive sys_call : Type :=
| OperatorNew (bytes : Z)
| OperatorDelete (ptr : pointer).

(** The system allocator behind [::operator new] and [::operator delete]:
    any state, a [new] that answers a request with a pointer or fails with
    [std::bad_alloc] ([None]), and a [delete]. *)
Record system : Type := {
  sys_state : Type;
  sys_new : Z -> sys_state -> option pointer * sys_state;
  sys_delete : pointer -> sys_state -> sys_state
}.

(** How a call ends: it returns, or [std::bad_alloc] propagates out of it. *)
Inductive outcome (A : Type) : Type :=
| Returns (a : A)
| Throws_bad_alloc.
Arguments Returns {A} a.
Arguments Throws_bad_alloc {A}.

Section allocator.
Variable sys : system.
(** The width of [size_t] in bits, and [sizeof(T)]. *)
Variable size_bits : Z.
Variable sizeof_T : Z.

(** The state of the process: the system allocator's own state and the
    calls it has received so far, oldest first. *)
Record world : Type := {
  heap : sys_state sys;
  calls : list sys_call
}.

Definition M (A : Type) : Type := world -> outcome A * world.

Definition ret {A} (a : A) : M A := fun w => (Returns a, w).

Definition SIZE_MAX : Z := 2 ^ size_bits - 1.

(** Multiplication of two [size_t]. *)
Definition size_mul (a b : Z) : Z := (a * b) mod 2 ^ size_bits.

(** [::operator new(bytes)] *)
Definition operator_new (bytes : Z) : M pointer :=
  fun w =>
    let (r, h) := sys_new sys bytes (heap w) in
    let w' := {| heap := h; calls := calls w ++ [OperatorNew bytes] |} in
    match r with
    | Some p => (Returns p, w')
    | None => (Throws_bad_alloc, w')
    end.

(** [::operator delete(ptr)] *)
Definition operator_delete (ptr : pointer) : M unit :=
  fun w =>
    (Returns tt,
     {| heap := sys_delete sys ptr (heap w);
        calls := calls w ++ [OperatorDelete ptr] |}).

(** [static T* allocate()] *)
Definition allocate_one : M pointer :=
  operator_new sizeof_T.

(** [static T* allocate(size_type n)] *)
Definition allocate (n : Z) : M pointer :=
  if n =? 0 then ret nullptr
  else operator_new (size_mul n sizeof_T).

(** [static void deallocate(T* ptr)] *)
Definition deallocate (ptr : pointer) : M unit :=
  if ptr =? nullptr then ret tt
  else operator_delete ptr.

(** [static void deallocate(T* ptr, size_type)] *)
Definition deallocate_n (ptr : pointer) (_ : Z) : M unit :=
  if ptr =? nullptr then ret tt
  else operator_delete ptr.

(** What the last call asked of the system allocator covers [n] objects of
    type [T]. *)
Definition requests_storage_for (n : Z) (before after : world) : Prop :=
  exists bytes,
    calls after = calls before ++ [OperatorNew bytes] /\ n * sizeof_T <= bytes.

End allocator.

Arguments heap {sys} _.
Arguments calls {sys} _.
Arguments ret {sys A} a _.

(** A simple system allocator: it hands out consecutive addresses
    starting at 4096 and never fails; its state is the next free address. *)
Definition bump_system : system := {|
  sys_state := Z;
  sys_new bytes next := (Some next, next + Z.max bytes 1);
  sys_delete _ next := next
|}.

Definition bump_start : world bump_system :=
  {| heap := (4096 : sys_state bump_system); calls := [] |}.

End allocator.

(** ** util.h: [pair] and its relational operators *)

Module mystl.

Record pair (Ty1 Ty2 : Type) : Type := { first : Ty1; second : Ty2 }.
Arguments first {Ty1 Ty2} _.
Arguments second {Ty1 Ty2} _.

(** The [operator==] and [operator<] an element type brings along. *)
Class Comparable (T : Type) : Type := {
  equal_to : T -> T -> bool;
  less : T -> T -> bool
}.

Section relational.
Context {Ty1 Ty2 : Type} `{Comparable Ty1} `{Comparable Ty2}.

(** One call of an element operator, with its operands in call order. *)
Inductive elem_comparison : Type :=
| EqFirst (a b : Ty1)
| LtFirst (a b : Ty1)
| EqSecond (a b : Ty2)
| LtSecond (a b : Ty2).

(** An expression of type [A]: its value and the element comparisons its
    evaluation performs, in order. *)
Definition eval (A : Type) : Type := A * list elem_comparison.

Definition result {A} (e : eval A) : A := fst e.
Definition trace {A} (e : eval A) : list elem_comparison := snd e.

Definition pure {A} (a : A) : eval A := (a, []).

Definition and_then {A B} (e : eval A) (k : A -> eval B) : eval B :=
  let (a, t) := e in
  let (b, t') := k a in
  (b, t ++ t').

Definition eq_first (a b : Ty1) : eval bool := (equal_to a b, [EqFirst a b]).
Definition lt_first (a b : Ty1) : eval bool := (less a b, [LtFirst a b]).
Definition eq_second (a b : Ty2) : eval bool := (equal_to a b, [EqSecond a b]).
Definition lt_second (a b : Ty2) : eval bool := (less a b, [LtSecond a b]).

(** The built-in [a && b], [a || b] and [!a]: the right operand of [&&] and
    [||] is evaluated only when the left one does not decide. *)
Definition logical_and (a b : eval bool) : eval bool :=
  and_then a (fun x => if x then b else pure false).

Definition logical_or (a b : eval bool) : eval bool :=
  and_then a (fun x => if x then pure true else b).

Definition logical_not (a : eval bool) : eval bool :=
  and_then a (fun x => pure (negb x)).

Definition operator_eq (lhs rhs : pair Ty1 Ty2) : eval bool :=
  logical_and (eq_first (first lhs) (first rhs)) (eq_second (second lhs) (second rhs)).

Definition operator_lt (lhs rhs : pair Ty1 Ty2) : eval bool :=
  logical_or (lt_first (first lhs) (first rhs))
    (logical_and (eq_first (first lhs) (first rhs))
                 (lt_second (second lhs) (second rhs))).

Definition operator_ne (lhs rhs : pair Ty1 Ty2) : eval bool :=
  logical_not (operator_eq lhs rhs).

Definition operator_gt (lhs rhs : pair Ty1 Ty2) : eval bool :=
  operator_lt rhs lhs.

Definition operator_le (lhs rhs : pair Ty1 Ty2) : eval bool :=
  logical_not (operator_lt rhs lhs).

Definition operator_ge (lhs rhs : pair Ty1 Ty2) : eval bool :=
  logical_not (operator_lt lhs rhs).

End relational.

Arguments elem_comparison Ty1 Ty2 : clear implicits.
Arguments eval Ty1 Ty2 A : clear implicits.

#[global] Instance Z_comparable : Comparable Z :=
  {| equal_to := Z.eqb; less := Z.ltb |}.

#[global] Instance string_comparable : Comparable string :=
  {| equal_to := String.eqb; less := String.ltb |}.

(** *** Assignment and [swap]

    Pair objects live in a store, at addresses; [this] and the arguments
    taken by reference are addresses into it. *)

(** The copy assignment, move assignment and move constructor an element
    type brings along.  [copy_assign_elem dst src] is the new [dst];
    [move_assign_elem dst src] is the new [dst] and the moved-from [src];
    [move_construct src] is the new object and the moved-from [src]. *)
Class Assignable (T : Type) : Type := {
  copy_assign_elem : T -> T -> T;
  move_assign_elem : T -> T -> T * T;
  move_construct : T -> T * T
}.

Inductive member : Type := member_first | member_second.

(** One call of an element operation, with the member it writes. *)
Inductive elem_op : Type :=
| CopyAssign (m : member)
| MoveAssign (m : member)
| MoveConstruct (m : member).

Section assignment.
Context {Ty1 Ty2 : Type} `{Assignable Ty1} `{Assignable Ty2}.

Definition address : Type := Z.

(** The pair objects alive, and the element operations run so far. *)
Record state : Type := {
  objects : gmap Z (pair Ty1 Ty2);
  ops : list elem_op
}.

(** A computation either goes on in a new state or touches an address that
    holds no object, which is undefined ([None]). *)
Definition M (A : Type) : Type := state -> option (A * state).

Definition ret {A} (a : A) : M A := fun st => Some (a, st).

Definition bind {A B} (m : M A) (k : A -> M B) : M B :=
  fun st =>
    match m st with
    | Some (a, st') => k a st'
    | None => None
    end.

Notation "'let*' x ':=' m 'in' k" := (bind m (fun x => k))
  (at level 10, x pattern, m at level 100, k at level 200).
Notation "m ';;' k" := (bind m (fun _ => k))
  (at level 100, k at level 200, right associativity).

(** An lvalue of type [T] denoting a member of a pair object. *)
Record lvalue (T : Type) : Type := {
  object_of : address;
  which : member;
  get : pair Ty1 Ty2 -> T;
  set : T -> pair Ty1 Ty2 -> pair Ty1 Ty2
}.
Arguments object_of {T} _.
Arguments which {T} _.
Arguments get {T} _ _.
Arguments set {T} _ _ _.

(** [p.first] and [p.second] for the pair at address [p]. *)
Definition first_of (p : address) : lvalue Ty1 := {|
  object_of := p;
  which := member_first;
  get := first;
  set v o := {| first := v; second := second o |}
|}.

Definition second_of (p : address) : lvalue Ty2 := {|
  object_of := p;
  which := member_second;
  get := second;
  set v o := {| first := first o; second := v |}
|}.

Definition load {T} (x : lvalue T) : M T :=
  fun st =>
    match objects st !! object_of x with
    | Some o => Some (get x o, st)
    | None => None
    end.

Definition store {T} (x : lvalue T) (v : T) : M unit :=
  fun st =>
    match objects st !! object_of x with
    | Some o =>
        Some (tt, {| objects := <[object_of x := set x v o]> (objects st);
                     ops := ops st |})
    | None => None
    end.

Definition record (e : elem_op) : M unit :=
  fun st => Some (tt, {| objects := objects st; ops := ops st ++ [e] |}).

(** [dst = src] *)
Definition assign_copy {T} `{Assignable T} (dst src : lvalue T) : M unit :=
  let* d := load dst in
  let* s := load src in
  store dst (copy_assign_elem d s);;
  record (CopyAssign (which dst)).

(** [dst = mystl::move(src)] *)
Definition assign_move {T} `{Assignable T} (dst src : lvalue T) : M unit :=
  let* d := load dst in
  let* s := load src in
  let (d', s') := move_assign_elem d s in
  store dst d';;
  store src s';;
  record (MoveAssign (which dst)).

(** [template <class Tp> void swap(Tp& lhs, Tp& rhs)]; [tmp] is a local. *)
Definition swap {Tp} `{Assignable Tp} (lhs rhs : lvalue Tp) : M unit :=
  let* l := load lhs in
  let (tmp, l') := move_construct l in
  store lhs l';;
  record (MoveConstruct (which lhs));;
  assign_move lhs rhs;;
  let* r := load rhs in
  let (r', _) := move_assign_elem r tmp in
  store rhs r';;
  record (MoveAssign (which rhs)).

(** [pair& operator=(const pair& rhs)]; the result is [*this]. *)
Definition operator_assign_copy (this rhs : address) : M address :=
  (if decide (this <> rhs) then
     assign_copy (first_of this) (first_of rhs);;
     assign_copy (second_of this) (second_of rhs)
   else ret tt);;
  ret this.

(** [pair& operator=(pair&& rhs)] *)
Definition operator_assign_move (this rhs : address) : M address :=
  (if decide (this <> rhs) then
     assign_move (first_of this) (first_of rhs);;
     assign_move (second_of this) (second_of rhs)
   else ret tt);;
  ret this.

(** [void pair::swap(pair& other)] *)
Definition pair_swap (this other : address) : M unit :=
  if decide (this <> other) then
    swap (first_of this) (first_of other);;
    swap (second_of this) (second_of other)
  else ret tt.

(** [void swap(pair<Ty1, Ty2>& lhs, pair<Ty1, Ty2>& rhs)] *)
Definition swap_pairs (lhs rhs : address) : M unit :=
  pair_swap lhs rhs.

End assignment.

Arguments state Ty1 Ty2 : clear implicits.

(** Integers and strings: assignment copies, and a move leaves the source
    as it was. *)
#[global] Instance Z_assignable : Assignable Z :=
  {| copy_assign_elem _ src := src;
     move_assign_elem _ src := (src, src);
     move_construct src := (src, src) |}.

#[global] Instance string_assignable : Assignable string :=
  {| copy_assign_elem _ src := src;
     move_assign_elem _ src := (src, EmptyString);
     move_construct src := (src, EmptyString) |}.

(** Two live pairs of an integer and a string, at addresses 16 and 32. *)
Definition two_pairs : state Z string := {|
  objects := <[16 := {| first := 1; second := "a"%string |}]>
               (<[32 := {| first := 7; second := "b"%string |}]> ∅);
  ops := []
|}.

(** *** [forward] and [make_pair]

    A forwarding parameter [Ty&& x] is bound either to a named object of the
    caller (an lvalue; [Ty] is deduced as [V&]) or to a temporary (an rvalue;
    [Ty] is deduced as [V]).  A member of type [Ty] is accordingly a
    reference to that object or an object of its own. *)

Inductive argument (V : Type) : Type :=
| named (x : Z)
| temporary (v : V).
Arguments named {V} x.
Arguments temporary {V} v.

Inductive slot (V : Type) : Type :=
| reference_to (x : Z)
| object_with (v : V).
Arguments reference_to {V} x.
Arguments object_with {V} v.

(** [mystl::forward<T>(arg)] is [static_cast<T&&>(arg)]: the argument again,
    in the value category it was passed in. *)
Definition forward {V} (arg : argument V) : argument V := arg.

(** The member initialiser [first(mystl::forward<Other1>(a))]: a reference
    member is bound to the object, an object member is built from the
    temporary. *)
Definition init_member {V} (a : argument V) : slot V :=
  match a with
  | named x => reference_to x
  | temporary v => object_with v
  end.

(** [pair(Other1&& a, Other2&& b)] *)
Definition pair_forwarding {V1 V2} (a : argument V1) (b : argument V2)
  : pair (slot V1) (slot V2) :=
  {| first := init_member (forward a); second := init_member (forward b) |}.

(** [pair<Ty1, Ty2> make_pair(Ty1&& first, Ty2&& second)] *)
Definition make_pair {V1 V2} (first : argument V1) (second : argument V2)
  : pair (slot V1) (slot V2) :=
  pair_forwarding (forward first) (forward second).


Definition slot_value {V} (env : gmap Z V) (s : slot V) : option V :=
  match s with
  | reference_to x => env !! x
  | object_with v => Some v
  end.

(** A member holds [v] as a value of its own: it reads [v] whatever the
    named objects of the caller hold, or whether they are still there. *)
Definition stored {V} (v : V) (s : slot V) : Prop :=
  forall env : gmap Z V, slot_value env s = Some v.

(** The same three functions with the construction of an object member
    left to the element type: the member is move-constructed from the
    temporary.  ([init_member] above takes that construction to yield the
    temporary's value.) *)
Module constructing.

Definition init_member {V} `{Assignable V} (a : argument V) : slot V :=
  match a with
  | named x => reference_to x
  | temporary v => object_with (fst (move_construct v))
  end.

(** [pair(Other1&& a, Other2&& b)] *)
Definition pair_forwarding {V1 V2} `{Assignable V1} `{Assignable V2}
    (a : argument V1) (b : argument V2) : pair (slot V1) (slot V2) :=
  {| first := init_member (forward a); second := init_member (forward b) |}.

(** [pair<Ty1, Ty2> make_pair(Ty1&& first, Ty2&& second)] *)
Definition make_pair {V1 V2} `{Assignable V1} `{Assignable V2}
    (first : argument V1) (second : argument V2) : pair (slot V1) (slot V2) :=
  pair_forwarding (forward first) (forward second).

End constructing.

End mystl.

(** ** util.h: [forward], by its types *)

Module value_category.
Import cxx.

(** Whether an expression is an lvalue or an rvalue. *)
Inductive category : Type := lvalue | rvalue.

Definition is_lvalue_reference (T : type) : bool :=
  match T with LRef _ => true | _ => false end.

(** [std::remove_reference<T>::type] *)
Definition remove_reference (T : type) : type :=
  match T with
  | LRef U | RRef U => U
  | _ => T
  end.

(** The template argument deduced for a forwarding parameter [T&& arg] from
    an argument of (non-reference) type [U]: [U&] for an lvalue, [U] for an
    rvalue. *)
Definition deduce (c : category) (U : type) : type :=
  match c with
  | lvalue => LRef U
  | rvalue => U
  end.

(** The value category of a call whose return type is [T], for the object
    types of [cxx.type] (which has no function types: a call returning an
    rvalue reference to a function is an lvalue). *)
Definition category_of_call (T : type) : category :=
  if is_lvalue_reference T then lvalue else rvalue.

(** The parameter and return type of
    [forward(typename std::remove_reference<T>::type& arg)]. *)
Definition forward_lvalue_param (T : type) : type :=
  add_lvalue_reference (remove_reference T).

Definition forward_lvalue_result (T : type) : type :=
  add_rvalue_reference T.

(** [forward(typename std::remove_reference<T>::type&& arg)]: the
    [static_assert] rejects the instantiation ([None]) when [T] is an lvalue
    reference. *)
Definition forward_rvalue_result (T : type) : option type :=
  if negb (is_lvalue_reference T) then Some (add_rvalue_reference T)
  else None.

End value_category.

(** ** allocator.h: allocation followed by deallocation *)

Module allocator_use.
Import allocator.

Definition bind {sys A B} (m : M sys A) (k : A -> M sys B) : M sys B :=
  fun w =>
    match m w with
    | (Returns a, w') => k a w'
    | (Throws_bad_alloc, w') => (Throws_bad_alloc, w')
    end.

(** [deallocate(allocate(n), n)] *)
Definition allocate_deallocate sys size_bits sizeof_T (n : Z) : M sys unit :=
  bind (allocate sys size_bits sizeof_T n) (fun p => deallocate_n sys p n).

(** [deallocate(allocate())] *)
Definition allocate_one_deallocate sys sizeof_T : M sys unit :=
  bind (allocate_one sys sizeof_T) (fun p => deallocate sys p).

End allocator_use.

(** ** util.h: [swap], [swap_range] and the array [swap] on plain objects *)

Module util_range.
Import mystl.

Section range.
Context {Tp : Type} `{Assignable Tp}.

(** The objects of type [Tp] alive, by address; an iterator is the address
    of an element and [++] moves to the next one.  A computation that
    touches an address without an object is undefined ([None]). *)
Definition memory : Type := gmap Z Tp.

(** [template <class Tp> void swap(Tp& lhs, Tp& rhs)] *)
Definition swap (lhs rhs : Z) (m : gmap Z Tp) : option (gmap Z Tp) :=
  (* auto tmp(mystl::move(lhs)); *)
  l ← m !! lhs;
  let (tmp, l') := move_construct l in
  let m1 := <[lhs := l']> m in
  (* lhs = mystl::move(rhs); *)
  d ← m1 !! lhs;
  s ← m1 !! rhs;
  let (d', s') := move_assign_elem d s in
  let m2 := <[rhs := s']> (<[lhs := d']> m1) in
  (* rhs = mystl::move(tmp); *)
  r ← m2 !! rhs;
  let (r', _) := move_assign_elem r tmp in
  Some (<[rhs := r']> m2).

(** [swap_range(first1, last1, first2)].  The loop runs while
    [first1 != last1]; [fuel] bounds the number of iterations, and running
    out of it is [None] as well. *)
Fixpoint swap_range (fuel : nat) (first1 last1 first2 : Z) (m : gmap Z Tp)
  : option (Z * gmap Z Tp) :=
  if decide (first1 <> last1) then
    match fuel with
    | O => None
    | S fuel' =>
        m' ← swap first1 first2 m;
        swap_range fuel' (first1 + 1) last1 (first2 + 1) m'
    end
  else Some (first2, m).

(** [template <class Tp, size_t N> void swap(Tp(&a)[N], Tp(&b)[N])]; the
    loop of [swap_range] runs [N] times. *)
Definition swap_array (N : nat) (a b : Z) (m : gmap Z Tp) : option (gmap Z Tp) :=
  snd <$> swap_range N a (a + Z.of_nat N) b m.

(** What [swap_range] leaves behind: the two ranges of [n] elements
    exchanged, everything else as it was. *)
Definition ranges_exchanged (n first1 first2 : Z) (m m' : gmap Z Tp) : Prop :=
  (forall i, 0 <= i < n ->
     m' !! (first1 + i) = m !! (first2 + i) /\
     m' !! (first2 + i) = m !! (first1 + i)) /\
  (forall k, ~ (first1 <= k < first1 + n) -> ~ (first2 <= k < first2 + n) ->
     m' !! k = m !! k).

End range.

End util_range.

(** ** Element types that behave like values *)

Module laws.
Import mystl.

(** Copy assignment, move assignment and move construction give the target
    the value of the source. *)
Class LawfulAssignable (T : Type) `{Assignable T} : Prop := {
  copy_assign_copies : forall d s : T, copy_assign_elem d s = s;
  move_assign_moves : forall d s : T, fst (move_assign_elem d s) = s;
  move_construct_moves : forall s : T, fst (move_construct s) = s
}.

(** The element operations one [pair::swap] of two distinct pairs runs. *)
Definition swap_ops : list elem_op :=
  [MoveConstruct member_first; MoveAssign member_first;
   MoveAssign member_first; MoveConstruct member_second;
   MoveAssign member_second; MoveAssign member_second].

(** [==] holds between a value and itself. *)
Class ReflexiveEq (T : Type) `{Comparable T} : Prop :=
  equal_to_refl : forall v : T, equal_to v v = true.

(** [==] decides equality and [<] is a strict total order. *)
Class StrictTotalOrder (T : Type) `{Comparable T} : Prop := {
  equal_to_spec : forall a b : T, equal_to a b = true <-> a = b;
  less_irreflexive : forall a : T, less a a = false;
  less_transitive :
    forall a b c : T, less a b = true -> less b c = true -> less a c = true;
  less_total : forall a b : T, less a b = true \/ a = b \/ less b a = true
}.

End laws.

(** * Properties *)

(** ** The type queries *)

Section type_facts.
Import cxx type_traits pair_ctor.

Lemma add_rvalue_reference_idem T :
  add_rvalue_reference (add_rvalue_reference T) = add_rvalue_reference T.
Proof. by destruct T. Qed.

Lemma declval_rref T : declval (add_rvalue_reference T) = declval T.
Proof. apply add_rvalue_reference_idem. Qed.

(** [is_convertible<From&&, To>] and [is_convertible<From, To>] ask the same
    question, both being decided at [declval<From>()]. *)
Lemma is_convertible_rref tr From To :
  is_convertible tr (add_rvalue_reference From) To = is_convertible tr From To.
Proof. unfold is_convertible. by rewrite declval_rref. Qed.

(** C8: [is_pair<T>::value] is true exactly when [T] is [mystl::pair<T1, T2>]
    for some [T1], [T2], and false for every other type: builtins, a class
    with whatever members (so also one that has members named first and
    second), and pointers to, references to and const-qualified versions of
    any type. *)
Theorem is_pair_exactly_pair :
  (forall T, value (is_pair T) = true <-> exists T1 T2, T = Pair T1 T2) /\
  (forall T, value (is_pair T) = false <-> ~ exists T1 T2, T = Pair T1 T2) /\
  (forall name, value (is_pair (Class name ["first"; "second"]%string)) = false).
Proof.
  split; [|split].
  - intros T; split.
    + destruct T; simpl; try discriminate. eauto.
    + by intros (T1 & T2 & ->).
  - intros T; split.
    + intros Hf (T1 & T2 & ->). discriminate Hf.
    + intros Hn. destruct T; simpl; try reflexivity.
      exfalso. apply Hn. eauto.
  - reflexivity.
Qed.

Ltac case_traits :=
  repeat match goal with
  | |- context [is_convertible ?tr ?a ?b] =>
      generalize (is_convertible tr a b); intros []
  | |- context [is_constructible ?tr ?a ?b] =>
      generalize (is_constructible tr a b); intros []
  | |- context [is_copy_constructible ?tr ?a] =>
      generalize (is_copy_constructible tr a); intros []
  end.

(** C1 (as amended): in each family of constructors (same-type, forwarding,
    from a const pair, from an rvalue pair) the implicit and the explicit
    rule are never enabled together, and one of the two is enabled exactly
    when the constructibility part of the condition, which they share,
    holds: the explicit rule is the complement of the implicit one within
    that part. *)
Theorem implicit_explicit_complement tr Ty1 Ty2 Other1 Other2 r :
  let on := enabled tr Ty1 Ty2 Other1 Other2 in
  on (implicit_twin r) && on (explicit_twin r) = false /\
  on (implicit_twin r) || on (explicit_twin r)
    = constructible_part tr Ty1 Ty2 Other1 Other2 r /\
  on (explicit_twin r)
    = constructible_part tr Ty1 Ty2 Other1 Other2 r && negb (on (implicit_twin r)).
Proof.
  destruct r; cbn -[is_convertible];
    unfold same_implicit_enabled, same_explicit_enabled,
      forward_implicit_enabled, forward_explicit_enabled,
      copy_pair_implicit_enabled, copy_pair_explicit_enabled,
      move_pair_implicit_enabled, move_pair_explicit_enabled;
    cbn -[is_convertible]; rewrite ?is_convertible_rref;
    case_traits; done.
Qed.

(** C1 (as stated) fails: for [pair<int, int>] built from two [int] rvalues
    the same-type implicit rule and the forwarding implicit rule are both
    enabled, so the conditions of distinct rules are not pairwise disjoint. *)
Lemma rules_not_pairwise_disjoint :
  ~ (forall tr Ty1 Ty2 Other1 Other2 r r',
       r <> r' ->
       enabled tr Ty1 Ty2 Other1 Other2 r &&
       enabled tr Ty1 Ty2 Other1 Other2 r' = false).
Proof.
  intros Hdisjoint.
  pose (int := Builtin "int").
  assert (SameImplicit <> ForwardImplicit) as Hne by discriminate.
  specialize (Hdisjoint arithmetic_traits int int int int _ _ Hne).
  vm_compute in Hdisjoint. discriminate Hdisjoint.
Qed.

End type_facts.

(** ** The allocator *)

Section allocator_facts.
Import allocator.

Lemma allocate_nonzero sys size_bits sizeof_T n (w : world sys) :
  n <> 0 ->
  allocate sys size_bits sizeof_T n w
  = operator_new sys (size_mul size_bits n sizeof_T) w.
Proof.
  intros Hn. unfold allocate.
  destruct (Z.eqb_spec n 0) as [->|_]; [contradiction|reflexivity].
Qed.

Lemma operator_new_calls sys bytes (w : world sys) :
  calls (snd (operator_new sys bytes w)) = calls w ++ [OperatorNew bytes].
Proof.
  unfold operator_new. by destruct (sys_new sys bytes (heap w)) as [[p|] h].
Qed.

Lemma operator_new_outcome sys bytes (w : world sys) :
  fst (operator_new sys bytes w)
  = match fst (sys_new sys bytes (heap w)) with
    | Some p => Returns p
    | None => Throws_bad_alloc
    end.
Proof.
  unfold operator_new. by destruct (sys_new sys bytes (heap w)) as [[p|] h].
Qed.

Lemma size_mul_exact size_bits a b :
  0 <= a * b <= SIZE_MAX size_bits -> size_mul size_bits a b = a * b.
Proof.
  unfold size_mul, SIZE_MAX. intros Hab. apply Z.mod_small. lia.
Qed.

(** A product above [SIZE_MAX] wraps to something strictly smaller. *)
Lemma size_mul_wraps size_bits a b :
  0 <= SIZE_MAX size_bits < a * b -> size_mul size_bits a b < a * b.
Proof.
  unfold size_mul, SIZE_MAX. intros Hab.
  assert (0 < 2 ^ size_bits) as Hpos by lia.
  pose proof (Z.mod_pos_bound (a * b) (2 ^ size_bits) Hpos). lia.
Qed.

(** [n > SIZE_MAX / s] says that [n * s] does not fit a [size_t]. *)
Lemma above_quotient_overflows size_bits s n :
  1 <= s -> SIZE_MAX size_bits / s < n -> SIZE_MAX size_bits < n * s.
Proof.
  intros Hs Hn.
  assert (SIZE_MAX size_bits < s * Z.succ (SIZE_MAX size_bits / s))
    by (apply Z.mul_succ_div_gt; lia).
  nia.
Qed.

(** C5 (as amended): [allocate(0)] returns [nullptr] and leaves the system
    allocator alone (no call, same state); for [n >= 1], [allocate(n)] makes
    exactly one call, [::operator new] with [n * sizeof(T)] computed in
    [size_t], and ends as that call ends; whenever [n * sizeof(T)] fits a
    [size_t] the request is for exactly [n * sizeof(T)] bytes, the storage of
    [n] instances. *)
Theorem allocate_zero_and_positive sys size_bits sizeof_T n (w : world sys) :
  1 <= sizeof_T ->
  1 <= n ->
  allocate sys size_bits sizeof_T 0 w = (Returns nullptr, w) /\
  (let bytes := (n * sizeof_T) mod 2 ^ size_bits in
   let after := allocate sys size_bits sizeof_T n w in
   calls (snd after) = calls w ++ [OperatorNew bytes] /\
   fst after = match fst (sys_new sys bytes (heap w)) with
               | Some p => Returns p
               | None => Throws_bad_alloc
               end /\
   (n * sizeof_T <= SIZE_MAX size_bits ->
    bytes = n * sizeof_T /\ requests_storage_for sys sizeof_T n w (snd after))).
Proof.
  intros Hs Hn. split; [reflexivity|]. cbv zeta.
  rewrite allocate_nonzero by lia.
  rewrite operator_new_calls, operator_new_outcome.
  split; [reflexivity|]. split; [reflexivity|].
  intros Hfit.
  assert (size_mul size_bits n sizeof_T = n * sizeof_T) as Heq
    by (apply size_mul_exact; nia).
  split; [exact Heq|].
  exists (n * sizeof_T). rewrite operator_new_calls, Heq. split; [reflexivity|lia].
Qed.

Lemma allocate_zero_and_positive_witness :
  let w := bump_start in
  let after := allocate bump_system 64 8 3 w in
  allocate bump_system 64 8 0 w = (Returns nullptr, w) /\
  calls (snd after) = [OperatorNew 24] /\
  fst after = Returns 4096.
Proof.
  destruct (allocate_zero_and_positive bump_system 64 8 3 bump_start)
    as (H0 & Hcalls & Hout & _); [lia | lia |].
  split; [exact H0|]. split; [exact Hcalls | exact Hout].
Defined.

(** C5 (as stated) fails: with a 64-bit [size_t] and [sizeof(T) = 2],
    [allocate(2^63)] asks the system allocator for 0 bytes, which is not the
    storage of 2^63 instances. *)
Lemma allocate_not_always_storage_for_n :
  ~ (forall sys size_bits sizeof_T n (w : world sys),
       1 <= sizeof_T <= SIZE_MAX size_bits ->
       1 <= n <= SIZE_MAX size_bits ->
       allocate sys size_bits sizeof_T 0 w = (Returns nullptr, w) /\
       requests_storage_for sys sizeof_T n w
         (snd (allocate sys size_bits sizeof_T n w))).
Proof.
  intros Hclaim.
  destruct (Hclaim bump_system 64 2 (2 ^ 63) bump_start)
    as (_ & bytes & Hcalls & Hbytes); [by vm_compute | by vm_compute |].
  vm_compute in Hcalls. injection Hcalls as <-. vm_compute in Hbytes.
  by apply Hbytes.
Qed.

(** C6: [deallocate(nullptr)] and [deallocate(nullptr, n)] return normally
    and leave the system allocator alone: no call reaches it and its state
    is the same. *)
Theorem deallocate_null_noop sys n (w : world sys) :
  deallocate sys nullptr w = (Returns tt, w) /\
  deallocate_n sys nullptr n w = (Returns tt, w).
Proof. split; reflexivity. Qed.

(** C7: [deallocate(ptr, n)] does what [deallocate(ptr)] does, whatever the
    count: same outcome, same calls to the system allocator, same state. *)
Theorem deallocate_count_ignored sys ptr n (w : world sys) :
  deallocate_n sys ptr n w = deallocate sys ptr w.
Proof. reflexivity. Qed.

(** C10: [allocate(n)] multiplies in [size_t] and does not check for
    overflow: for [n > SIZE_MAX / sizeof(T)] it still calls [::operator new],
    with [n * sizeof(T)] reduced modulo [2^w], and that is fewer bytes than
    [n] objects need. *)
Theorem allocate_overflow_wraps sys size_bits sizeof_T n (w : world sys) :
  1 <= sizeof_T ->
  0 <= n <= SIZE_MAX size_bits ->
  SIZE_MAX size_bits / sizeof_T < n ->
  let bytes := (n * sizeof_T) mod 2 ^ size_bits in
  let after := allocate sys size_bits sizeof_T n w in
  calls (snd after) = calls w ++ [OperatorNew bytes] /\
  fst after = match fst (sys_new sys bytes (heap w)) with
              | Some p => Returns p
              | None => Throws_bad_alloc
              end /\
  bytes < n * sizeof_T.
Proof.
  intros Hs Hn Hbig. cbv zeta.
  pose proof (above_quotient_overflows size_bits sizeof_T n Hs Hbig) as Hover.
  assert (n <> 0) as Hn0.
  { intros ->. pose proof (Z.div_pos (SIZE_MAX size_bits) sizeof_T). lia. }
  rewrite allocate_nonzero by exact Hn0.
  rewrite operator_new_calls, operator_new_outcome.
  split; [reflexivity|]. split; [reflexivity|].
  apply size_mul_wraps. lia.
Qed.

Lemma allocate_overflow_wraps_witness :
  let after := allocate bump_system 64 8 (2 ^ 61 + 1) bump_start in
  calls (snd after) = [OperatorNew 8] /\
  fst after = Returns 4096 /\
  8 < (2 ^ 61 + 1) * 8.
Proof.
  apply (allocate_overflow_wraps bump_system 64 8 (2 ^ 61 + 1) bump_start);
    by vm_compute.
Defined.

End allocator_facts.

(** ** The relational operators of [pair] *)

Section relational_facts.
Import mystl.

Context {Ty1 Ty2 : Type} `{Comparable Ty1} `{Comparable Ty2}.
Implicit Types p q : pair Ty1 Ty2.

Lemma operator_eq_unfold p q :
  operator_eq p q
  = (equal_to (first p) (first q) && equal_to (second p) (second q),
     EqFirst (first p) (first q) ::
     if equal_to (first p) (first q)
     then [EqSecond (second p) (second q)] else []).
Proof.
  unfold operator_eq, logical_and, and_then, eq_first, eq_second, pure.
  by destruct (equal_to (first p) (first q)).
Qed.

Lemma operator_lt_unfold p q :
  operator_lt p q
  = (less (first p) (first q) ||
       (equal_to (first p) (first q) && less (second p) (second q)),
     LtFirst (first p) (first q) ::
     if less (first p) (first q) then []
     else EqFirst (first p) (first q) ::
          if equal_to (first p) (first q)
          then [LtSecond (second p) (second q)] else []).
Proof.
  unfold operator_lt, logical_or, logical_and, and_then,
    lt_first, eq_first, lt_second, pure.
  by destruct (less (first p) (first q)), (equal_to (first p) (first q)).
Qed.

Lemma logical_not_result (e : eval Ty1 Ty2 bool) :
  result (logical_not e) = negb (result e).
Proof. by destruct e. Qed.

Lemma logical_not_trace (e : eval Ty1 Ty2 bool) :
  trace (logical_not e) = trace e.
Proof. destruct e as [b t]. unfold logical_not; simpl. apply app_nil_r. Qed.

End relational_facts.

Section relational_claims.
Import mystl.

(** C2: [p == q] is true exactly when [first] and [second] are both equal,
    and [second] is compared only when the [first]s are equal; [p < q] is
    true exactly when [p.first < q.first], or [p.first == q.first] and
    [p.second < q.second], the [second]s being compared only when the
    [first]s are not in order but equal.  So Pair(1,a) == Pair(1,a) and
    Pair(1,b) < Pair(1,c) hold, and Pair(2,a) < Pair(1,z) does not. *)
Theorem pair_equality_and_order :
  (forall (Ty1 Ty2 : Type) `(Comparable Ty1) `(Comparable Ty2)
          (p q : pair Ty1 Ty2),
     let eq1 := equal_to (first p) (first q) in
     let eq2 := equal_to (second p) (second q) in
     let lt1 := less (first p) (first q) in
     let lt2 := less (second p) (second q) in
     (result (operator_eq p q) = true <-> eq1 = true /\ eq2 = true) /\
     trace (operator_eq p q)
     = EqFirst (first p) (first q) ::
       (if eq1 then [EqSecond (second p) (second q)] else []) /\
     (result (operator_lt p q) = true
      <-> lt1 = true \/ (eq1 = true /\ lt2 = true)) /\
     trace (operator_lt p q)
     = LtFirst (first p) (first q) ::
       (if lt1 then []
        else EqFirst (first p) (first q) ::
             if eq1 then [LtSecond (second p) (second q)] else [])) /\
  result (operator_eq {| first := 1; second := "a"%string |}
                      {| first := 1; second := "a"%string |}) = true /\
  result (operator_lt {| first := 1; second := "b"%string |}
                      {| first := 1; second := "c"%string |}) = true /\
  result (operator_lt {| first := 2; second := "a"%string |}
                      {| first := 1; second := "z"%string |}) = false.
Proof.
  split; [|by vm_compute].
  intros Ty1 Ty2 C1 C2 p q. cbv zeta.
  rewrite operator_eq_unfold, operator_lt_unfold. unfold result, trace; simpl.
  destruct (equal_to (first p) (first q)), (equal_to (second p) (second q)),
    (less (first p) (first q)), (less (second p) (second q));
    simpl; intuition congruence.
Qed.

(** C3: [!=], [>], [<=] and [>=] are obtained from [==] and [<]: [p != q] is
    the negation of [p == q], [p > q] is [q < p], [p <= q] is the negation
    of [q < p] and [p >= q] is the negation of [p < q]; each performs the
    element comparisons of the operator it is derived from and no other. *)
Theorem derived_relational_operators
    (Ty1 Ty2 : Type) `(Comparable Ty1) `(Comparable Ty2) (p q : pair Ty1 Ty2) :
  (result (operator_ne p q) = negb (result (operator_eq p q)) /\
   trace (operator_ne p q) = trace (operator_eq p q)) /\
  (result (operator_gt p q) = result (operator_lt q p) /\
   trace (operator_gt p q) = trace (operator_lt q p)) /\
  (result (operator_le p q) = negb (result (operator_lt q p)) /\
   trace (operator_le p q) = trace (operator_lt q p)) /\
  (result (operator_ge p q) = negb (result (operator_lt p q)) /\
   trace (operator_ge p q) = trace (operator_lt p q)).
Proof.
  unfold operator_ne, operator_gt, operator_le, operator_ge.
  rewrite !logical_not_result, !logical_not_trace. done.
Qed.

End relational_claims.

(** ** [make_pair] *)

Section make_pair_claim.
Import mystl laws.

#[global] Instance Z_lawful : LawfulAssignable Z.
Proof. by split. Qed.

#[global] Instance string_lawful : LawfulAssignable string.
Proof. by split. Qed.

#[global] Instance Z_reflexive_eq : ReflexiveEq Z.
Proof. intros v. apply Z.eqb_refl. Qed.

#[global] Instance string_reflexive_eq : ReflexiveEq string.
Proof. intros v. apply String.eqb_refl. Qed.

Lemma constructing_make_pair_lawful
    {V1 V2 : Type} `{Assignable V1} `{Assignable V2}
    `{!LawfulAssignable V1} `{!LawfulAssignable V2}
    (x : argument V1) (y : argument V2) :
  constructing.make_pair x y = make_pair x y.
Proof.
  unfold constructing.make_pair, constructing.pair_forwarding, make_pair,
    pair_forwarding, forward.
  destruct x, y; simpl; by rewrite ?move_construct_moves.
Qed.

Lemma stored_object_with {V} (v : V) (s : slot V) :
  stored v s <-> s = object_with v.
Proof.
  split.
  - intros Hs. destruct s as [l|v0].
    + specialize (Hs ∅). simpl in Hs. by rewrite lookup_empty in Hs.
    + specialize (Hs ∅). simpl in Hs. congruence.
  - intros -> env. reflexivity.
Qed.




End make_pair_claim.

(** ** Assignment and [swap] of [pair] *)

Section assignment_facts.
Import mystl.
Context {Ty1 Ty2 : Type} `{Assignable Ty1} `{Assignable Ty2}.
Implicit Types st : state Ty1 Ty2.
Implicit Types p q : pair Ty1 Ty2.

Lemma state_eta st : {| objects := objects st; ops := ops st |} = st.
Proof. by destruct st. Qed.

(** [first = rhs.first] on two distinct live objects. *)
Lemma assign_copy_first st this rhs p q :
  objects st !! this = Some p ->
  objects st !! rhs = Some q ->
  assign_copy (first_of this) (first_of rhs) st
  = Some (tt, {| objects :=
                   <[this := {| first := copy_assign_elem (first p) (first q);
                                second := second p |}]> (objects st);
                 ops := ops st ++ [CopyAssign member_first] |}).
Proof.
  intros Hp Hq. unfold assign_copy, bind, load, store, record; simpl.
  by rewrite Hp, Hq, Hp.
Qed.

Lemma assign_copy_second st this rhs p q :
  objects st !! this = Some p ->
  objects st !! rhs = Some q ->
  assign_copy (second_of this) (second_of rhs) st
  = Some (tt, {| objects :=
                   <[this := {| first := first p;
                                second := copy_assign_elem (second p) (second q) |}]>
                     (objects st);
                 ops := ops st ++ [CopyAssign member_second] |}).
Proof.
  intros Hp Hq. unfold assign_copy, bind, load, store, record; simpl.
  by rewrite Hp, Hq, Hp.
Qed.

(** [first = mystl::move(rhs.first)] on two distinct live objects. *)
Lemma assign_move_first st this rhs p q :
  this <> rhs ->
  objects st !! this = Some p ->
  objects st !! rhs = Some q ->
  assign_move (first_of this) (first_of rhs) st
  = Some (tt, {| objects :=
                   <[rhs := {| first := snd (move_assign_elem (first p) (first q));
                               second := second q |}]>
                     (<[this := {| first := fst (move_assign_elem (first p) (first q));
                                   second := second p |}]> (objects st));
                 ops := ops st ++ [MoveAssign member_first] |}).
Proof.
  intros Hne Hp Hq. unfold assign_move, bind, load, store, record; simpl.
  rewrite Hp, Hq. destruct (move_assign_elem (first p) (first q)) as [d' s'].
  simpl. rewrite Hp. simpl. by rewrite lookup_insert_ne, Hq.
Qed.

Lemma assign_move_second st this rhs p q :
  this <> rhs ->
  objects st !! this = Some p ->
  objects st !! rhs = Some q ->
  assign_move (second_of this) (second_of rhs) st
  = Some (tt, {| objects :=
                   <[rhs := {| first := first q;
                               second := snd (move_assign_elem (second p) (second q)) |}]>
                     (<[this := {| first := first p;
                                   second := fst (move_assign_elem (second p) (second q)) |}]>
                        (objects st));
                 ops := ops st ++ [MoveAssign member_second] |}).
Proof.
  intros Hne Hp Hq. unfold assign_move, bind, load, store, record; simpl.
  rewrite Hp, Hq. destruct (move_assign_elem (second p) (second q)) as [d' s'].
  simpl. rewrite Hp. simpl. by rewrite lookup_insert_ne, Hq.
Qed.

(** Writing two distinct objects twice keeps the later values. *)
Lemma insert_twice_two (m : gmap Z (pair Ty1 Ty2)) a b p1 q1 p2 q2 :
  a <> b ->
  <[b := q2]> (<[a := p2]> (<[b := q1]> (<[a := p1]> m)))
  = <[b := q2]> (<[a := p2]> m).
Proof.
  intros Hab. apply map_eq; intros k.
  destruct (decide (k = b)) as [->|Hkb].
  - by rewrite !lookup_insert_eq.
  - rewrite (lookup_insert_ne _ b k) by done.
    rewrite (lookup_insert_ne _ b k) by done.
    destruct (decide (k = a)) as [->|Hka].
    + by rewrite !lookup_insert_eq.
    + by rewrite !lookup_insert_ne.
Qed.

Lemma self_operations_are_noops st a :
  operator_assign_copy a a st = Some (a, st) /\
  operator_assign_move a a st = Some (a, st) /\
  pair_swap a a st = Some (tt, st) /\
  swap_pairs a a st = Some (tt, st).
Proof.
  unfold swap_pairs, pair_swap, operator_assign_copy, operator_assign_move, bind.
  by case_decide.
Qed.

(** C4: the same-type copy and move assignment and [swap] compare [this]
    with the address of their argument first.  When the two are the same
    object, nothing is read or written and no element operation runs: the
    store, the object's value included, is what it was, whether or not an
    object lives at the address.  Otherwise copy assignment assigns [first]
    and then [second] of [*this] from those of [rhs], and move assignment
    move-assigns [first] and then [second], leaving in [rhs] what the
    element moves leave; [*this] is returned. *)
Theorem assignment_checks_identity st this rhs p q :
  this <> rhs ->
  objects st !! this = Some p ->
  objects st !! rhs = Some q ->
  (forall a st',
     operator_assign_copy a a st' = Some (a, st') /\
     operator_assign_move a a st' = Some (a, st') /\
     pair_swap a a st' = Some (tt, st') /\
     swap_pairs a a st' = Some (tt, st')) /\
  operator_assign_copy this rhs st
  = Some (this,
          {| objects :=
               <[this := {| first := copy_assign_elem (first p) (first q);
                            second := copy_assign_elem (second p) (second q) |}]>
                 (objects st);
             ops := ops st ++ [CopyAssign member_first; CopyAssign member_second] |}) /\
  operator_assign_move this rhs st
  = Some (this,
          {| objects :=
               <[rhs := {| first := snd (move_assign_elem (first p) (first q));
                           second := snd (move_assign_elem (second p) (second q)) |}]>
                 (<[this := {| first := fst (move_assign_elem (first p) (first q));
                               second := fst (move_assign_elem (second p) (second q)) |}]>
                    (objects st));
             ops := ops st ++ [MoveAssign member_first; MoveAssign member_second] |}).
Proof.
  intros Hne Hp Hq. split; [intros a st'; apply self_operations_are_noops|].
  split.
  - unfold operator_assign_copy, bind. case_decide; [|done].
    rewrite (assign_copy_first st this rhs p q Hp Hq).
    erewrite assign_copy_second; simpl;
      [| apply lookup_insert_eq | by rewrite lookup_insert_ne ].
    simpl. by rewrite insert_insert_eq, <- app_assoc.
  - unfold operator_assign_move, bind. case_decide; [|done].
    rewrite (assign_move_first st this rhs p q Hne Hp Hq).
    erewrite assign_move_second; simpl;
      [| done
       | rewrite lookup_insert_ne by done; apply lookup_insert_eq
       | apply lookup_insert_eq ].
    simpl. by rewrite insert_twice_two, <- app_assoc.
Qed.

End assignment_facts.

Section assignment_example.
Import mystl.

(** Swapping the two pairs exchanges their values: three element moves for
    [first], then three for [second]. *)
Example pair_swap_exchanges :
  pair_swap 16 32 two_pairs
  = Some (tt,
          {| objects := <[16 := {| first := 7; second := "b"%string |}]>
                          (<[32 := {| first := 1; second := "a"%string |}]> ∅);
             ops := [MoveConstruct member_first; MoveAssign member_first;
                     MoveAssign member_first; MoveConstruct member_second;
                     MoveAssign member_second; MoveAssign member_second] |}).
Proof. by vm_compute. Qed.

Lemma assignment_checks_identity_witness :
  operator_assign_copy 16 16 two_pairs = Some (16, two_pairs) /\
  operator_assign_copy 16 32 two_pairs
  = Some (16,
          {| objects := <[16 := {| first := 7; second := "b"%string |}]>
                          (objects two_pairs);
             ops := [CopyAssign member_first; CopyAssign member_second] |}).
Proof.
  destruct (assignment_checks_identity two_pairs 16 32
              {| first := 1; second := "a"%string |}
              {| first := 7; second := "b"%string |})
    as (Hself & Hcopy & _); [lia | reflexivity | reflexivity |].
  split; [apply Hself | exact Hcopy].
Defined.

End assignment_example.

(** ** Further properties: value categories and constructor conditions *)

Section value_category_facts.
Import cxx pair_ctor value_category.

Lemma add_rvalue_reference_object T :
  is_reference T = false -> add_rvalue_reference T = RRef T.
Proof. by destruct T. Qed.

Lemma const_ref_is_lvalue_reference T : exists U, const_ref T = LRef U.
Proof. destruct T; simpl; eauto. Qed.

Lemma add_rvalue_reference_const_ref T :
  add_rvalue_reference (const_ref T) = const_ref T.
Proof. destruct (const_ref_is_lvalue_reference T) as [U ->]. reflexivity. Qed.

(** X2: [forward<T>] gives an argument back in the category it was passed
    in: with [T] deduced from a forwarding parameter bound to an argument of
    type [U], the lvalue overload takes a [U&] and returns an lvalue [U&]
    for an lvalue argument and an rvalue [U&&] for an rvalue argument; the
    rvalue overload is rejected for an lvalue [T] and returns [U&&]
    otherwise. *)
Theorem forward_preserves_category (c : category) (U : type) :
  is_reference U = false ->
  let T := deduce c U in
  forward_lvalue_param T = LRef U /\
  category_of_call (forward_lvalue_result T) = c /\
  remove_reference (forward_lvalue_result T) = U /\
  forward_rvalue_result T
  = match c with lvalue => None | rvalue => Some (RRef U) end.
Proof.
  intros HU. destruct c; simpl.
  - unfold forward_lvalue_param; simpl. by destruct U.
  - unfold forward_lvalue_param, forward_lvalue_result, forward_rvalue_result,
      category_of_call.
    rewrite (add_rvalue_reference_object _ HU). by destruct U.
Qed.

Lemma forward_preserves_category_witness :
  category_of_call (forward_lvalue_result (deduce lvalue (Builtin "int")))
  = lvalue /\
  category_of_call (forward_lvalue_result (deduce rvalue (Builtin "int")))
  = rvalue.
Proof.
  split.
  - apply (forward_preserves_category lvalue (Builtin "int")). reflexivity.
  - apply (forward_preserves_category rvalue (Builtin "int")). reflexivity.
Defined.

(** X3: the converting constructors share one condition.  The constructors
    from an rvalue [pair<Other1, Other2>] are enabled exactly when the
    forwarding constructors are for [Other1], [Other2]; the constructors
    from a [const pair<Other1, Other2>&] exactly when the forwarding
    constructors are for [const Other1&], [const Other2&]; implicit with
    implicit and explicit with explicit. *)
Theorem converting_constructors_agree tr Ty1 Ty2 Other1 Other2 :
  let on := enabled tr Ty1 Ty2 in
  on Other1 Other2 MovePairImplicit = on Other1 Other2 ForwardImplicit /\
  on Other1 Other2 MovePairExplicit = on Other1 Other2 ForwardExplicit /\
  on Other1 Other2 CopyPairImplicit
  = on (const_ref Other1) (const_ref Other2) ForwardImplicit /\
  on Other1 Other2 CopyPairExplicit
  = on (const_ref Other1) (const_ref Other2) ForwardExplicit.
Proof.
  cbn -[is_convertible const_ref].
  unfold move_pair_implicit_enabled, forward_implicit_enabled,
    copy_pair_implicit_enabled, copy_pair_explicit_enabled,
    forward_explicit_enabled.
  by rewrite !is_convertible_rref.
Qed.

End value_category_facts.

(** ** Further properties: the allocator *)

Section allocator_more.
Import allocator allocator_use.

Lemma operator_new_eq sys bytes (w : world sys) :
  operator_new sys bytes w
  = (match fst (sys_new sys bytes (heap w)) with
     | Some p => Returns p
     | None => Throws_bad_alloc
     end,
     {| heap := snd (sys_new sys bytes (heap w));
        calls := calls w ++ [OperatorNew bytes] |}).
Proof.
  unfold operator_new. by destruct (sys_new sys bytes (heap w)) as [[p|] h].
Qed.

(** X4: [allocate()] makes exactly one request to the system allocator, for
    [sizeof(T)] bytes, and ends as that request ends; as [sizeof(T)] fits a
    [size_t], it does what [allocate(1)] does. *)
Theorem allocate_one_is_allocate_1 sys size_bits sizeof_T (w : world sys) :
  0 <= sizeof_T <= SIZE_MAX size_bits ->
  let after := allocate_one sys sizeof_T w in
  calls (snd after) = calls w ++ [OperatorNew sizeof_T] /\
  fst after = match fst (sys_new sys sizeof_T (heap w)) with
              | Some p => Returns p
              | None => Throws_bad_alloc
              end /\
  allocate sys size_bits sizeof_T 1 w = after.
Proof.
  intros Hs. cbv zeta. unfold allocate_one.
  rewrite operator_new_calls, operator_new_outcome.
  split; [reflexivity|]. split; [reflexivity|].
  rewrite allocate_nonzero by lia.
  rewrite size_mul_exact by lia. f_equal. lia.
Qed.

Lemma allocate_one_is_allocate_1_witness :
  calls (snd (allocate_one bump_system 8 bump_start)) = [OperatorNew 8] /\
  fst (allocate_one bump_system 8 bump_start) = Returns 4096 /\
  allocate bump_system 64 8 1 bump_start = allocate_one bump_system 8 bump_start.
Proof.
  apply (allocate_one_is_allocate_1 bump_system 64 8 bump_start).
  by vm_compute.
Defined.

(** X5: [deallocate(allocate(n), n)] reaches the system allocator as
    follows and in no other way.  For [n = 0] there is no call at all.
    Otherwise there is one [::operator new]; if it fails, [std::bad_alloc]
    propagates and nothing is released; if it returns a block, that block
    and no other is passed to [::operator delete], once, and the call returns
    normally. *)
Theorem allocate_deallocate_calls sys size_bits sizeof_T n (w : world sys) :
  let bytes := (n * sizeof_T) mod 2 ^ size_bits in
  let after := allocate_deallocate sys size_bits sizeof_T n w in
  calls (snd after)
  = calls w ++
    (if n =? 0 then []
     else OperatorNew bytes ::
          match fst (sys_new sys bytes (heap w)) with
          | Some p => if p =? nullptr then [] else [OperatorDelete p]
          | None => []
          end) /\
  fst after
  = (if n =? 0 then Returns tt
     else match fst (sys_new sys bytes (heap w)) with
          | Some _ => Returns tt
          | None => Throws_bad_alloc
          end).
Proof.
  cbv zeta. unfold allocate_deallocate, bind, allocate.
  destruct (n =? 0).
  - simpl. by rewrite app_nil_r.
  - rewrite operator_new_eq. unfold size_mul.
    destruct (fst (sys_new sys _ (heap w))) as [p|]; [|done].
    unfold deallocate_n. destruct (p =? nullptr); simpl; [done|].
    by rewrite <- app_assoc.
Qed.

End allocator_more.

(** ** Further properties: the order on pairs *)

Section order_facts.
Import mystl laws.

#[global] Instance Z_strict_total_order : StrictTotalOrder Z.
Proof.
  split; simpl.
  - intros a b. apply Z.eqb_eq.
  - intros a. apply Z.ltb_irrefl.
  - intros a b c Hab%Z.ltb_lt Hbc%Z.ltb_lt. apply Z.ltb_lt. lia.
  - intros a b. rewrite !Z.ltb_lt. lia.
Qed.

Section element.
Context {T : Type} `{Comparable T} `{!StrictTotalOrder T}.

Lemma equal_to_reflexive (a : T) : equal_to a a = true.
Proof. by apply equal_to_spec. Qed.

Lemma equal_to_false (a b : T) : a <> b -> equal_to a b = false.
Proof.
  intros Hne. destruct (equal_to a b) eqn:E; [|done].
  by apply equal_to_spec in E.
Qed.

Lemma less_asymmetric (a b : T) : less a b = true -> less b a = false.
Proof.
  intros Hab. destruct (less b a) eqn:Hba; [|done].
  pose proof (less_transitive a b a Hab Hba) as Haa.
  by rewrite less_irreflexive in Haa.
Qed.

Lemma less_not_equal (a b : T) : less a b = true -> a <> b.
Proof. intros Hab ->. by rewrite less_irreflexive in Hab. Qed.

(** The three ways two elements can compare, with what every operator
    answers in each. *)
Lemma compare_cases (a b : T) :
  (less a b = true /\ less b a = false /\
   equal_to a b = false /\ equal_to b a = false) \/
  (a = b) \/
  (less b a = true /\ less a b = false /\
   equal_to a b = false /\ equal_to b a = false).
Proof.
  destruct (less_total a b) as [Hab|[->|Hba]]; [left|by right; left|right; right].
  - pose proof (less_not_equal a b Hab).
    repeat split; auto using less_asymmetric, equal_to_false.
  - pose proof (less_not_equal b a Hba).
    repeat split; auto using less_asymmetric, equal_to_false.
Qed.

End element.

Section pairs.
Context {Ty1 Ty2 : Type} `{Comparable Ty1} `{Comparable Ty2}.
Context `{!StrictTotalOrder Ty1} `{!StrictTotalOrder Ty2}.
Implicit Types p q r : pair Ty1 Ty2.

Lemma result_operator_eq p q :
  result (operator_eq p q)
  = equal_to (first p) (first q) && equal_to (second p) (second q).
Proof. by rewrite operator_eq_unfold. Qed.

Lemma result_operator_lt p q :
  result (operator_lt p q)
  = less (first p) (first q) ||
      (equal_to (first p) (first q) && less (second p) (second q)).
Proof. by rewrite operator_lt_unfold. Qed.

Lemma operator_lt_iff p q :
  result (operator_lt p q) = true <->
  less (first p) (first q) = true \/
  (first p = first q /\ less (second p) (second q) = true).
Proof.
  rewrite result_operator_lt, orb_true_iff, andb_true_iff, equal_to_spec.
  reflexivity.
Qed.

Ltac compare_elements p q :=
  destruct p as [a1 b1], q as [a2 b2]; simpl;
  destruct (compare_cases a1 a2) as [(? & ? & ? & ?)|[->|(? & ? & ? & ?)]];
  destruct (compare_cases b1 b2) as [(? & ? & ? & ?)|[->|(? & ? & ? & ?)]];
  repeat match goal with
         | E : @eq bool _ _ |- _ => rewrite ?E; clear E
         end;
  rewrite ?less_irreflexive, ?equal_to_reflexive; simpl.

(** X6: when [==] on both element types decides equality, [p == q] is true
    exactly when [p] and [q] are the same pair. *)
Theorem operator_eq_decides_equality p q :
  result (operator_eq p q) = true <-> p = q.
Proof.
  rewrite result_operator_eq, andb_true_iff, !equal_to_spec.
  destruct p, q; simpl. split; [by intros [-> ->] | by intros [= -> ->]].
Qed.

(** X7: when [<] is a strict total order on both element types (and [==]
    decides equality), [<] on pairs is a strict total order too: no pair is
    below itself, [p < q] and [q < r] give [p < r], and two pairs are
    ordered one way or the other unless they are the same. *)
Theorem operator_lt_strict_total_order :
  (forall p, result (operator_lt p p) = false) /\
  (forall p q r,
     result (operator_lt p q) = true -> result (operator_lt q r) = true ->
     result (operator_lt p r) = true) /\
  (forall p q,
     result (operator_lt p q) = true \/ p = q \/
     result (operator_lt q p) = true) /\
  (forall p q,
     result (operator_lt p q) = true -> result (operator_lt q p) = false).
Proof.
  split; [|split; [|split]].
  - intros p. rewrite result_operator_lt, !less_irreflexive. apply andb_false_r.
  - intros p q r. rewrite !operator_lt_iff.
    intros [H12|[E12 H12]] [H23|[E23 H23]].
    + left. eauto using less_transitive.
    + left. by rewrite <- E23.
    + left. by rewrite E12.
    + right. split; [congruence | eauto using less_transitive].
  - intros p q. rewrite !result_operator_lt. compare_elements p q; auto.
  - intros p q. rewrite !result_operator_lt. compare_elements p q; auto.
Qed.

(** X8: under the same conditions the derived operators mean what their
    names say: [p <= q] is [p < q] or [p == q], [p >= q] is [p > q] or
    [p == q], [p != q] is [p < q] or [p > q], and [p <= q] with [q <= p]
    is [p == q]. *)
Theorem derived_operators_consistent p q :
  result (operator_le p q)
  = result (operator_lt p q) || result (operator_eq p q) /\
  result (operator_ge p q)
  = result (operator_gt p q) || result (operator_eq p q) /\
  result (operator_ne p q)
  = result (operator_lt p q) || result (operator_gt p q) /\
  result (operator_le p q) && result (operator_le q p)
  = result (operator_eq p q).
Proof.
  unfold operator_le, operator_ge, operator_ne, operator_gt.
  rewrite !logical_not_result, !result_operator_lt, !result_operator_eq.
  compare_elements p q; done.
Qed.

End pairs.
End order_facts.

Section order_examples.
Import mystl laws.

Lemma operator_eq_decides_equality_witness :
  result (operator_eq {| first := 1; second := 2 |}
                      {| first := 1; second := 2 |}) = true <->
  {| first := 1; second := 2 |} = {| first := 1; second := 2 |}.
Proof.
  apply (operator_eq_decides_equality (Ty1 := Z) (Ty2 := Z)).
Defined.

Lemma operator_lt_strict_total_order_witness :
  result (operator_lt {| first := 1; second := 2 |}
                      {| first := 1; second := 2 |}) = false.
Proof.
  destruct (operator_lt_strict_total_order (Ty1 := Z) (Ty2 := Z))
    as (Hirreflexive & _).
  apply Hirreflexive.
Defined.

Lemma derived_operators_consistent_witness :
  result (operator_le {| first := 1; second := 2 |}
                      {| first := 1; second := 3 |})
  = result (operator_lt {| first := 1; second := 2 |}
                        {| first := 1; second := 3 |})
    || result (operator_eq {| first := 1; second := 2 |}
                           {| first := 1; second := 3 |}).
Proof.
  apply (derived_operators_consistent (Ty1 := Z) (Ty2 := Z)).
Defined.

End order_examples.

(** ** Further properties: assignment and [swap] of [pair], for pairs of
    objects

    The store of [mystl.state] holds both members of a pair by value: what
    follows is about [pair<Ty1, Ty2>] with [Ty1] and [Ty2] object types, not
    about pairs with reference members (which [make_pair] returns for named
    arguments), whose members can alias objects outside the pair. *)

Section pair_swap_facts.
Import mystl laws.
Context {Ty1 Ty2 : Type} `{Assignable Ty1} `{Assignable Ty2}.
Context `{!LawfulAssignable Ty1} `{!LawfulAssignable Ty2}.
Implicit Types st : state Ty1 Ty2.
Implicit Types p q : pair Ty1 Ty2.

Lemma move_construct_value {T} `{LawfulAssignable T} (s : T) :
  exists s', move_construct s = (s, s').
Proof.
  pose proof (move_construct_moves s) as E.
  destruct (move_construct s) as [v s']. simpl in E. subst. eauto.
Qed.

Lemma move_assign_value {T} `{LawfulAssignable T} (d s : T) :
  exists s', move_assign_elem d s = (s, s').
Proof.
  pose proof (move_assign_moves d s) as E.
  destruct (move_assign_elem d s) as [v s']. simpl in E. subst. eauto.
Qed.

(** [mystl::swap(first, other.first)] on two distinct live objects. *)
Lemma swap_first st this other p q :
  this <> other ->
  objects st !! this = Some p ->
  objects st !! other = Some q ->
  swap (first_of this) (first_of other) st
  = Some (tt, {| objects :=
                   <[other := {| first := first p; second := second q |}]>
                     (<[this := {| first := first q; second := second p |}]>
                        (objects st));
                 ops := ops st ++ [MoveConstruct member_first;
                                   MoveAssign member_first;
                                   MoveAssign member_first] |}).
Proof.
  intros Hne Hp Hq.
  unfold swap, assign_move, bind, load, store, record; simpl.
  rewrite Hp.
  destruct (move_construct_value (first p)) as [l' ->]. simpl.
  rewrite Hp. simpl. rewrite lookup_insert_eq. simpl.
  rewrite lookup_insert_ne, Hq by done.
  destruct (move_assign_value l' (first q)) as [s' ->]. simpl.
  rewrite lookup_insert_eq. simpl.
  rewrite lookup_insert_ne, lookup_insert_ne, Hq by done. simpl.
  rewrite lookup_insert_eq. simpl.
  destruct (move_assign_value s' (first p)) as [t' ->]. simpl.
  rewrite lookup_insert_eq. simpl.
  rewrite !insert_insert_eq. by rewrite <- !app_assoc.
Qed.

Lemma swap_second st this other p q :
  this <> other ->
  objects st !! this = Some p ->
  objects st !! other = Some q ->
  swap (second_of this) (second_of other) st
  = Some (tt, {| objects :=
                   <[other := {| first := first q; second := second p |}]>
                     (<[this := {| first := first p; second := second q |}]>
                        (objects st));
                 ops := ops st ++ [MoveConstruct member_second;
                                   MoveAssign member_second;
                                   MoveAssign member_second] |}).
Proof.
  intros Hne Hp Hq.
  unfold swap, assign_move, bind, load, store, record; simpl.
  rewrite Hp.
  destruct (move_construct_value (second p)) as [l' ->]. simpl.
  rewrite Hp. simpl. rewrite lookup_insert_eq. simpl.
  rewrite lookup_insert_ne, Hq by done.
  destruct (move_assign_value l' (second q)) as [s' ->]. simpl.
  rewrite lookup_insert_eq. simpl.
  rewrite lookup_insert_ne, lookup_insert_ne, Hq by done. simpl.
  rewrite lookup_insert_eq. simpl.
  destruct (move_assign_value s' (second p)) as [t' ->]. simpl.
  rewrite lookup_insert_eq. simpl.
  rewrite !insert_insert_eq. by rewrite <- !app_assoc.
Qed.

Lemma pair_swap_distinct st this other p q :
  this <> other ->
  objects st !! this = Some p ->
  objects st !! other = Some q ->
  pair_swap this other st
  = Some (tt, {| objects := <[other := p]> (<[this := q]> (objects st));
                 ops := ops st ++ swap_ops |}).
Proof.
  intros Hne Hp Hq. unfold pair_swap. case_decide; [|done].
  unfold bind at 1. rewrite (swap_first st this other p q Hne Hp Hq).
  erewrite swap_second; simpl;
    [| done
     | rewrite lookup_insert_ne by done; apply lookup_insert_eq
     | apply lookup_insert_eq ].
  simpl. rewrite insert_twice_two by done.
  destruct p, q. simpl. by rewrite <- app_assoc.
Qed.

(** X9: for [pair<Ty1, Ty2>] with [Ty1] and [Ty2] object types (no
    reference members) whose moves carry the value over, [p.swap(q)] on two
    distinct live pairs leaves in [p] the value [q] had and in [q] the
    value [p] had, touches no other pair, and runs three element moves for
    [first], then three for [second]; the free function [swap(p, q)] does
    the same. *)
Theorem pair_swap_exchanges_values st this other p q :
  this <> other ->
  objects st !! this = Some p ->
  objects st !! other = Some q ->
  pair_swap this other st
  = Some (tt, {| objects := <[other := p]> (<[this := q]> (objects st));
                 ops := ops st ++ swap_ops |}) /\
  swap_pairs this other st = pair_swap this other st.
Proof.
  intros Hne Hp Hq. split; [by apply pair_swap_distinct | reflexivity].
Qed.

(** X10: under the same conditions (object element types, no reference
    members, moves that carry the value over), swapping two distinct live
    pairs twice gives every pair the value it had at the start. *)
Theorem pair_swap_twice_restores st this other p q :
  this <> other ->
  objects st !! this = Some p ->
  objects st !! other = Some q ->
  bind (pair_swap this other) (fun _ => pair_swap this other) st
  = Some (tt, {| objects := objects st;
                 ops := ops st ++ swap_ops ++ swap_ops |}).
Proof.
  intros Hne Hp Hq. unfold bind.
  rewrite (pair_swap_distinct st this other p q Hne Hp Hq).
  erewrite pair_swap_distinct; simpl;
    [| done
     | rewrite lookup_insert_ne by done; apply lookup_insert_eq
     | apply lookup_insert_eq ].
  rewrite insert_twice_two by done.
  f_equal; f_equal; f_equal.
  - rewrite (insert_id (objects st) this p Hp). by apply insert_id.
  - by rewrite <- app_assoc.
Qed.

(** X11: for [pair<Ty1, Ty2>] with [Ty1] and [Ty2] object types (no
    reference members) whose assignments carry the value over, copy
    assignment between two distinct live pairs leaves in [*this] the value
    of [rhs] and changes no other pair, [rhs] included; move assignment
    leaves in [*this] the value [rhs] had and changes no pair other than
    [*this] and [rhs]. *)
Theorem assignment_transfers_value st this rhs p q :
  this <> rhs ->
  objects st !! this = Some p ->
  objects st !! rhs = Some q ->
  (exists st',
     operator_assign_copy this rhs st = Some (this, st') /\
     objects st' = <[this := q]> (objects st)) /\
  (exists st',
     operator_assign_move this rhs st = Some (this, st') /\
     objects st' !! this = Some q /\
     forall k, k <> this -> k <> rhs -> objects st' !! k = objects st !! k).
Proof.
  intros Hne Hp Hq. split.
  - eexists. split.
    + unfold operator_assign_copy, bind. case_decide; [|contradiction].
      rewrite (assign_copy_first st this rhs p q Hp Hq).
      erewrite assign_copy_second; simpl;
        [| apply lookup_insert_eq | by rewrite lookup_insert_ne ].
      reflexivity.
    + simpl. rewrite insert_insert_eq, !copy_assign_copies. by destruct q.
  - eexists. split; [|split].
    + unfold operator_assign_move, bind. case_decide; [|contradiction].
      rewrite (assign_move_first st this rhs p q Hne Hp Hq).
      erewrite assign_move_second; simpl;
        [| done
         | rewrite lookup_insert_ne by done; apply lookup_insert_eq
         | apply lookup_insert_eq ].
      reflexivity.
    + simpl. rewrite lookup_insert_ne by done. rewrite lookup_insert_eq.
      rewrite !move_assign_moves. by destruct q.
    + intros k Hk1 Hk2. simpl. by rewrite !lookup_insert_ne.
Qed.

End pair_swap_facts.

Section pair_swap_examples.
Import mystl laws.

Lemma pair_swap_exchanges_values_witness :
  pair_swap 16 32 two_pairs
  = Some (tt,
          {| objects := <[32 := {| first := 1; second := "a"%string |}]>
                          (<[16 := {| first := 7; second := "b"%string |}]>
                             (objects two_pairs));
             ops := swap_ops |}).
Proof.
  apply (pair_swap_exchanges_values two_pairs 16 32
           {| first := 1; second := "a"%string |}
           {| first := 7; second := "b"%string |});
    [lia | reflexivity | reflexivity].
Defined.

Lemma pair_swap_twice_restores_witness :
  bind (pair_swap 16 32) (fun _ => pair_swap 16 32) two_pairs
  = Some (tt, {| objects := objects two_pairs; ops := swap_ops ++ swap_ops |}).
Proof.
  apply (pair_swap_twice_restores two_pairs 16 32
           {| first := 1; second := "a"%string |}
           {| first := 7; second := "b"%string |});
    [lia | reflexivity | reflexivity].
Defined.

Lemma assignment_transfers_value_witness :
  exists st',
    operator_assign_copy 16 32 two_pairs = Some (16, st') /\
    objects st'
    = <[16 := {| first := 7; second := "b"%string |}]> (objects two_pairs).
Proof.
  apply (assignment_transfers_value two_pairs 16 32
           {| first := 1; second := "a"%string |}
           {| first := 7; second := "b"%string |});
    [lia | reflexivity | reflexivity].
Defined.

End pair_swap_examples.

(** ** Further properties: [swap], [swap_range] and the array [swap] *)

Section range_facts.
Import mystl laws util_range.
Context {Tp : Type} `{Assignable Tp} `{!LawfulAssignable Tp}.
Implicit Types m : gmap Z Tp.

Lemma swap_distinct m lhs rhs a b :
  lhs <> rhs ->
  m !! lhs = Some a ->
  m !! rhs = Some b ->
  swap lhs rhs m = Some (<[rhs := a]> (<[lhs := b]> m)).
Proof.
  intros Hne Ha Hb. unfold swap. rewrite Ha. simpl.
  destruct (move_construct_value a) as [l' ->].
  rewrite lookup_insert_eq. simpl.
  rewrite lookup_insert_ne, Hb by done. simpl.
  destruct (move_assign_value l' b) as [s' ->].
  rewrite lookup_insert_eq. simpl.
  destruct (move_assign_value s' a) as [t' ->].
  f_equal. apply map_eq; intros k.
  destruct (decide (k = rhs)) as [->|Hkr].
  - by rewrite !lookup_insert_eq.
  - rewrite !(lookup_insert_ne _ rhs k) by done.
    destruct (decide (k = lhs)) as [->|Hkl].
    + by rewrite !lookup_insert_eq.
    + by rewrite !lookup_insert_ne.
Qed.

(** X12: for an element type whose moves carry the value over, the generic
    [swap] of two distinct live objects exchanges their values and changes
    no other object. *)
Theorem swap_exchanges m lhs rhs a b :
  lhs <> rhs ->
  m !! lhs = Some a ->
  m !! rhs = Some b ->
  exists m',
    swap lhs rhs m = Some m' /\
    m' !! lhs = Some b /\
    m' !! rhs = Some a /\
    forall k, k <> lhs -> k <> rhs -> m' !! k = m !! k.
Proof.
  intros Hne Ha Hb. eexists. split; [by apply swap_distinct|].
  split; [|split].
  - rewrite lookup_insert_ne by done. apply lookup_insert_eq.
  - apply lookup_insert_eq.
  - intros k Hkl Hkr. by rewrite !lookup_insert_ne.
Qed.

Lemma swap_range_run (n : nat) : forall fuel first1 first2 m,
  (n <= fuel)%nat ->
  first1 + Z.of_nat n <= first2 \/ first2 + Z.of_nat n <= first1 ->
  (forall i, 0 <= i < Z.of_nat n ->
     is_Some (m !! (first1 + i)) /\ is_Some (m !! (first2 + i))) ->
  exists m',
    swap_range fuel first1 (first1 + Z.of_nat n) first2 m
    = Some (first2 + Z.of_nat n, m') /\
    ranges_exchanged (Z.of_nat n) first1 first2 m m'.
Proof.
  induction n as [|n IH]; intros fuel first1 first2 m Hfuel Hdisj Hlive.
  - exists m. split.
    + replace (first1 + Z.of_nat 0) with first1 by lia.
      replace (first2 + Z.of_nat 0) with first2 by lia.
      destruct fuel; simpl; by case_decide.
    + split; [intros i Hi; lia | done].
  - destruct fuel as [|fuel]; [lia|].
    destruct (Hlive 0) as [[a Ha] [b Hb]]; [lia|].
    rewrite Z.add_0_r in Ha, Hb.
    assert (first1 <> first2) as Hne by lia.
    set (m1 := <[first2 := a]> (<[first1 := b]> m)).
    assert (forall k, k <> first1 -> k <> first2 -> m1 !! k = m !! k) as Hm1.
    { intros k Hk1 Hk2. unfold m1. by rewrite !lookup_insert_ne. }
    destruct (IH fuel (first1 + 1) (first2 + 1) m1)
      as (m' & Hrun & Hswapped & Hframe); [lia | lia | |].
    { intros i Hi. rewrite !Hm1 by lia.
      replace (first1 + 1 + i) with (first1 + (i + 1)) by lia.
      replace (first2 + 1 + i) with (first2 + (i + 1)) by lia.
      apply Hlive. lia. }
    exists m'. split.
    + simpl. case_decide; [|lia].
      rewrite (swap_distinct m first1 first2 a b Hne Ha Hb). simpl.
      replace (first1 + Z.of_nat (S n)) with (first1 + 1 + Z.of_nat n) by lia.
      fold m1. rewrite Hrun. do 2 f_equal. lia.
    + split.
      * intros i Hi. destruct (decide (i = 0)) as [->|Hi0].
        -- rewrite !Z.add_0_r, !Hframe by lia. unfold m1.
           rewrite lookup_insert_ne, !lookup_insert_eq by done. by rewrite Ha, Hb.
        -- destruct (Hswapped (i - 1)) as [E1 E2]; [lia|].
           replace (first1 + 1 + (i - 1)) with (first1 + i) in * by lia.
           replace (first2 + 1 + (i - 1)) with (first2 + i) in * by lia.
           rewrite E1, E2, !Hm1 by lia. done.
      * intros k Hk1 Hk2. rewrite Hframe by lia. apply Hm1; lia.
Qed.

(** X13: for an element type whose moves carry the value over,
    [swap_range(first1, first1 + n, first2)] on two ranges of live objects
    that do not overlap returns [first2 + n] after [n] iterations, leaves
    in each element of either range the value of its counterpart in the
    other, and changes nothing outside the two ranges. *)
Theorem swap_range_exchanges (n fuel : nat) first1 first2 m :
  (n <= fuel)%nat ->
  first1 + Z.of_nat n <= first2 \/ first2 + Z.of_nat n <= first1 ->
  (forall i, 0 <= i < Z.of_nat n ->
     is_Some (m !! (first1 + i)) /\ is_Some (m !! (first2 + i))) ->
  exists m',
    swap_range fuel first1 (first1 + Z.of_nat n) first2 m
    = Some (first2 + Z.of_nat n, m') /\
    ranges_exchanged (Z.of_nat n) first1 first2 m m'.
Proof. apply swap_range_run. Qed.

(** X14: under the same conditions the array [swap] of two arrays of [N]
    live elements that do not overlap exchanges them element by element
    and changes nothing else. *)
Theorem swap_array_exchanges (N : nat) a b m :
  a + Z.of_nat N <= b \/ b + Z.of_nat N <= a ->
  (forall i, 0 <= i < Z.of_nat N ->
     is_Some (m !! (a + i)) /\ is_Some (m !! (b + i))) ->
  exists m',
    swap_array N a b m = Some m' /\
    ranges_exchanged (Z.of_nat N) a b m m'.
Proof.
  intros Hdisj Hlive.
  destruct (swap_range_run N N a b m) as (m' & Hrun & Hex); [lia | done | done |].
  exists m'. split; [|done]. unfold swap_array. by rewrite Hrun.
Qed.

End range_facts.

Section range_edges.
Import mystl util_range.
Context {Tp : Type} `{Assignable Tp}.
Implicit Types m : gmap Z Tp.

Lemma swap_range_reversed fuel : forall first1 last1 first2 m,
  last1 < first1 -> swap_range fuel first1 last1 first2 m = None.
Proof.
  induction fuel as [|fuel IH]; intros first1 last1 first2 m Hlt; simpl.
  - case_decide; [done | lia].
  - case_decide; [|lia].
    destruct (swap first1 first2 m) as [m'|]; simpl; [|done].
    apply IH. lia.
Qed.

(** X15: the ends of [swap_range].  On an empty range it returns [first2]
    at once and touches nothing, whatever lives at the addresses; when
    [last1] is before [first1] the loop condition never fails, so no number
    of iterations makes it return. *)
Theorem swap_range_edges first1 last1 first2 m :
  (forall fuel, swap_range fuel first1 first1 first2 m = Some (first2, m)) /\
  (last1 < first1 ->
   forall fuel, swap_range fuel first1 last1 first2 m = None).
Proof.
  split.
  - intros [|fuel]; simpl; by case_decide.
  - intros Hlt fuel. by apply swap_range_reversed.
Qed.

End range_edges.

Section range_examples.
Import mystl laws util_range.

Lemma swap_exchanges_witness :
  exists m' : gmap Z Z,
    swap 0 1 (<[0 := 10]> (<[1 := 11]> ∅)) = Some m' /\
    m' !! 0 = Some 11 /\ m' !! 1 = Some 10.
Proof.
  destruct (swap_exchanges (<[0 := 10]> (<[1 := 11]> ∅) : gmap Z Z) 0 1 10 11)
    as (m' & Hrun & H0 & H1 & _); [lia | reflexivity | reflexivity |].
  by exists m'.
Defined.

(** Two arrays of two integers each, at addresses 0 and 4. *)
Lemma two_arrays_live :
  forall i, 0 <= i < Z.of_nat 2 ->
    is_Some ((<[0 := 10]> (<[1 := 11]> (<[4 := 20]> (<[5 := 21]> ∅)))
              : gmap Z Z) !! (0 + i)) /\
    is_Some ((<[0 := 10]> (<[1 := 11]> (<[4 := 20]> (<[5 := 21]> ∅)))
              : gmap Z Z) !! (4 + i)).
Proof.
  intros i Hi. assert (i = 0 \/ i = 1) as [-> | ->] by lia;
    split; by eexists.
Defined.

Lemma swap_range_exchanges_witness :
  exists m' : gmap Z Z,
    swap_range 2 0 (0 + Z.of_nat 2) 4
      (<[0 := 10]> (<[1 := 11]> (<[4 := 20]> (<[5 := 21]> ∅))))
    = Some (4 + Z.of_nat 2, m').
Proof.
  destruct (swap_range_exchanges 2 2 0 4
              (<[0 := 10]> (<[1 := 11]> (<[4 := 20]> (<[5 := 21]> ∅))))
              ltac:(lia) ltac:(simpl; lia) two_arrays_live)
    as (m' & Hrun & _).
  by exists m'.
Defined.

Lemma swap_array_exchanges_witness :
  exists m' : gmap Z Z,
    swap_array 2 0 4
      (<[0 := 10]> (<[1 := 11]> (<[4 := 20]> (<[5 := 21]> ∅))))
    = Some m'.
Proof.
  destruct (swap_array_exchanges 2 0 4
              (<[0 := 10]> (<[1 := 11]> (<[4 := 20]> (<[5 := 21]> ∅))))
              ltac:(simpl; lia) two_arrays_live)
    as (m' & Hrun & _).
  by exists m'.
Defined.

Lemma swap_range_edges_witness :
  swap_range 5 3 1 4 (<[3 := 10]> (<[4 := 20]> ∅) : gmap Z Z) = None.
Proof.
  apply (swap_range_edges 3 1 4 (<[3 := 10]> (<[4 := 20]> ∅) : gmap Z Z)).
  lia.
Defined.

End range_examples.

(** ** Further properties: [make_pair] and named objects *)

Section make_pair_facts.
Import mystl.


End make_pair_facts.
